(** * acclimatise.converter.wdl: generating WDL from the CLI data model

    A shallow embedding of [src/acclimatise/converter/wdl.py] and the
    properties of its type lowering, type mapping, identifier stripping and
    command building.

    Python values are modelled by explicit sum types, exceptions by a
    [result] monad, [set] by [gset], and keyword-argument dictionaries by
    [gmap string]. *)

From Stdlib Require Import ZArith NArith Ascii String.
From Equations Require Import Equations.
From stdpp Require Import gmap strings list fin_maps.

Open Scope list_scope.

(** ** Python strings

    A [str] is a sequence of Unicode code points. *)

Abbreviation char := N (only parsing).
Abbreviation str := (list N) (only parsing).

(** An ASCII literal, read as a [str]. *)
Definition py (s : string) : str :=
  N_of_ascii <$> list_ascii_of_string s.

(** ** Exceptions *)

Inductive PyError :=
| TypeError       (* [str.join] over an item that is not a [str] *)
| IndexError      (* list index out of range *)
| KeyError        (* [set.pop] on an empty set *)
| ValueError      (* [max] of an empty sequence *)
| AttributeError  (* attribute missing on the object *)
| Exception (msg : str).

Inductive result (A : Type) :=
| Ok (a : A)
| Raise (e : PyError).
Arguments Ok {A} a.
Arguments Raise {A} e.

#[global] Instance result_ret : MRet result := fun _ a => Ok a.
#[global] Instance result_bind : MBind result := fun _ _ f r =>
  match r with
  | Ok a => f a
  | Raise e => Raise e
  end.

Definition is_Ok {A} (r : result A) : Prop := exists a, r = Ok a.

(** [[f(x) for x in xs]] where [f] may raise: the first exception wins. *)
Fixpoint comprehension {A B} (f : A -> result B) (xs : list A) : result (list B) :=
  match xs with
  | [] => Ok []
  | x :: rest =>
      y ← f x;
      ys ← comprehension f rest;
      Ok (y :: ys)
  end.

(** ** cli_types *)

(** Modelled from the spec: the classes of [acclimatise.cli_types], a module
    that is not among the sources at hand.  The abstract types are the
    tagged variant of the data model; [homogenous] is the flag carried by a
    tuple, computed when the model is built and trusted here. *)
Inductive CliType :=
| CliString
| CliFloat
| CliBoolean
| CliInteger
| CliFile
| CliDir
| CliEnum
| CliList (value : CliType)
| CliTuple (values : list CliType) (homogenous : bool)
| CliDict (key value : CliType).

(** The classes themselves, as produced by [type(t)]. *)
Inductive CliClass :=
| class_CliString
| class_CliFloat
| class_CliBoolean
| class_CliInteger
| class_CliFile
| class_CliDir
| class_CliEnum
| class_CliList
| class_CliTuple
| class_CliDict.

#[global] Instance CliClass_eq_dec : EqDecision CliClass.
Proof. solve_decision. Defined.

Definition CliClass_code (c : CliClass) : nat :=
  match c with
  | class_CliString => 0 | class_CliFloat => 1 | class_CliBoolean => 2
  | class_CliInteger => 3 | class_CliFile => 4 | class_CliDir => 5
  | class_CliEnum => 6 | class_CliList => 7 | class_CliTuple => 8
  | class_CliDict => 9
  end.

Definition CliClass_of_code (n : nat) : CliClass :=
  match n with
  | 0 => class_CliString | 1 => class_CliFloat | 2 => class_CliBoolean
  | 3 => class_CliInteger | 4 => class_CliFile | 5 => class_CliDir
  | 6 => class_CliEnum | 7 => class_CliList | 8 => class_CliTuple
  | _ => class_CliDict
  end.

#[global] Instance CliClass_countable : Countable CliClass.
Proof. by apply (inj_countable' CliClass_code CliClass_of_code); intros []. Defined.

(** [type(t)] *)
Definition type_of (t : CliType) : CliClass :=
  match t with
  | CliString => class_CliString
  | CliFloat => class_CliFloat
  | CliBoolean => class_CliBoolean
  | CliInteger => class_CliInteger
  | CliFile => class_CliFile
  | CliDir => class_CliDir
  | CliEnum => class_CliEnum
  | CliList _ => class_CliList
  | CliTuple _ _ => class_CliTuple
  | CliDict _ _ => class_CliDict
  end.

(** ** Python values that reach the converter *)

Inductive PyVal :=
| Inst (t : CliType)   (* an instance of a [cli_types] class *)
| Cls (c : CliClass)   (* a [cli_types] class object *)
| Str (s : str)
| Bool (b : bool)
| Int (z : Z).

(** [isinstance(v, c)] for a [cli_types] class [c]: the classes are
    siblings, so only an instance of [c] itself qualifies. *)
Definition isinstance (v : PyVal) (c : CliClass) : bool :=
  match v with
  | Inst t => bool_decide (type_of t = c)
  | _ => false
  end.

(** [sep.join(items)]: every item has to be a [str]. *)
Fixpoint str_join (sep : str) (items : list PyVal) : result str :=
  match items with
  | [] => Ok []
  | Str s :: rest =>
      match rest with
      | [] => Ok s
      | _ => tail ← str_join sep rest; Ok (s ++ sep ++ tail)
      end
  | _ :: _ => Raise TypeError
  end.

(** ** wdlgen types

    The constructors of [wdlgen] used by the converter, with their
    arguments as fields. *)

Inductive PrimitiveKind := kString | kFloat | kBoolean | kInt | kFile | kDirectory.

Inductive WdlType :=
| MkWdlType (type_obj : WdlTypeObj) (optional : bool)
with WdlTypeObj :=
| PrimitiveType (kind : PrimitiveKind)
| ArrayType (subtype : WdlType) (requires_multiple : bool).

Definition wdl_optional (w : WdlType) : bool :=
  match w with MkWdlType _ o => o end.
Definition wdl_type_obj (w : WdlType) : WdlTypeObj :=
  match w with MkWdlType t _ => t end.

(** ** lowest_common_type *)

Definition complex_types : gset CliClass :=
  {[ class_CliDir; class_CliDict; class_CliFile; class_CliTuple; class_CliList ]}.

(** [set.pop()] *)
Definition set_pop (s : gset CliClass) : result CliClass :=
  match elements s with
  | c :: _ => Ok c
  | [] => Raise KeyError
  end.

(** [{type(t) for t in types}] *)
Definition type_set_of (types : list CliType) : gset CliClass :=
  list_to_set (type_of <$> types).

Definition lowest_common_type (types : list CliType) : result PyVal :=
  let type_set := type_set_of types in
  if bool_decide (size type_set = 1) then
    (* If there is only one type, use it *)
    c ← set_pop type_set; Ok (Cls c)
  else if bool_decide (size type_set = 2)
          && bool_decide (class_CliInteger ∈ type_set)
          && bool_decide (class_CliFloat ∈ type_set) then
    (* If they're all numeric, they can be represented as floats *)
    Ok (Inst CliFloat)
  else if bool_decide (complex_types ∩ type_set ≠ ∅) then
    (* These complex types cannot be represented in a simpler way *)
    names ← str_join (py ", ") (Cls <$> elements type_set);
    Raise (Exception (py "There is no common type between " ++ names))
  else
    (* Most of the time, strings can be used to represent primitive types *)
    Ok (Inst CliString).

(** ** WdlGenerator.type_to_wdl *)

Fixpoint cli_size (t : CliType) : nat :=
  match t with
  | CliList v => S (cli_size v)
  | CliTuple vs _ =>
      S (S ((fix sum (l : list CliType) : nat :=
               match l with
               | [] => 0
               | v :: r => cli_size v + sum r
               end) vs))
  | CliDict k v => S (cli_size k + cli_size v)
  | _ => 1
  end.

Definition py_size (v : PyVal) : nat :=
  match v with
  | Inst t => cli_size t
  | _ => 0
  end.

Definition inspect {A} (a : A) : {b : A | a = b} := exist _ a eq_refl.

Equations type_to_wdl (typ : PyVal) (optional : bool) : result WdlType
  by wf (py_size typ) lt :=
type_to_wdl (Inst CliString) optional :=
  Ok (MkWdlType (PrimitiveType kString) optional);
type_to_wdl (Inst CliFloat) optional :=
  Ok (MkWdlType (PrimitiveType kFloat) optional);
type_to_wdl (Inst CliBoolean) optional :=
  Ok (MkWdlType (PrimitiveType kBoolean) optional);
type_to_wdl (Inst CliInteger) optional :=
  Ok (MkWdlType (PrimitiveType kInt) optional);
type_to_wdl (Inst CliFile) optional :=
  Ok (MkWdlType (PrimitiveType kFile) optional);
type_to_wdl (Inst CliDir) optional :=
  Ok (MkWdlType (PrimitiveType kDirectory) optional);
type_to_wdl (Inst (CliTuple values homogenous)) optional with homogenous := {
  | true with values := {
    | [] => Raise IndexError
    | v0 :: _ =>
        sub ← type_to_wdl (Inst v0) false;
        Ok (MkWdlType (ArrayType sub (negb optional)) false) }
  | false with inspect (lowest_common_type values) := {
    | exist _ (Ok lowered) _ =>
        sub ← type_to_wdl lowered false;
        Ok (MkWdlType (ArrayType sub (negb optional)) false)
    | exist _ (Raise e) _ => Raise e } };
type_to_wdl (Inst (CliList value)) optional :=
  sub ← type_to_wdl (Inst value) false;
  Ok (MkWdlType (ArrayType sub (negb optional)) false);
type_to_wdl (Inst CliEnum) optional :=
  Ok (MkWdlType (PrimitiveType kString) optional);
type_to_wdl _ optional :=
  Ok (MkWdlType (PrimitiveType kString) optional).
Next Obligation.
  intros; simpl; lia.
Qed.
Next Obligation.
  intros; simpl; lia.
Qed.
Next Obligation.
  intros values lowered Hlow **. cbv beta in Hlow.
  unfold lowest_common_type, mbind, result_bind in Hlow.
  repeat case_match; simplify_eq; simpl; lia.
Qed.

(** ** The identifier regexes *)

Definition ord (a : ascii) : char := N_of_ascii a.

Definition in_range (lo hi : ascii) (c : char) : bool :=
  (ord lo <=? c)%N && (c <=? ord hi)%N.

(** [[a-zA-Z]] *)
Definition is_letter (c : char) : bool :=
  in_range "a" "z" c || in_range "A" "Z" c.

(** [[a-zA-Z0-9_]] *)
Definition is_ident_char (c : char) : bool :=
  in_range "a" "z" c || in_range "A" "Z" c || in_range "0" "9" c
  || (c =? ord "_")%N.

(** [WDL_IDENT.fullmatch(s)], for [WDL_IDENT = [a-zA-Z][a-zA-Z0-9_]*]. *)
Definition WDL_IDENT_fullmatch (s : str) : bool :=
  match s with
  | [] => false
  | c :: rest => is_letter c && forallb is_ident_char rest
  end.

(** Whether [WDL_STRIP = (^[^a-zA-Z])|([^a-zA-Z0-9_])] matches at offset
    [pos] of the subject, where the character is [c].  Either alternative
    consumes exactly that character; [^] holds at offset 0 only. *)
Definition WDL_STRIP_match (pos : nat) (c : char) : bool :=
  (bool_decide (pos = 0) && negb (is_letter c)) || negb (is_ident_char c).

(** [WDL_STRIP.sub(repl, s)], scanning from offset [pos]: every match is
    replaced by [repl], every other character is kept. *)
Fixpoint WDL_STRIP_sub_from (pos : nat) (repl s : str) : str :=
  match s with
  | [] => []
  | c :: rest =>
      (if WDL_STRIP_match pos c then repl else [c])
        ++ WDL_STRIP_sub_from (S pos) repl rest
  end.

Definition WDL_STRIP_sub (repl s : str) : str := WDL_STRIP_sub_from 0 repl s.

(** [text.replace(old, new)] for a one-character [old]. *)
Definition str_replace (old : ascii) (new : str) (text : str) : str :=
  text ≫= λ c, if (c =? ord old)%N then new else [c].

(** ** The CLI model *)

Module model.

(** Modelled from the spec: the value kind of a flag in
    [acclimatise.model], a module that is not among the sources at hand;
    [EmptyFlagArg] is the kind of a boolean switch. *)
Inductive FlagArg :=
| EmptyFlagArg
| ValuedFlagArg.

(** Modelled from the spec: an argument of [acclimatise.model], a flag or
    a positional. *)
Inductive CliArgument :=
| Flag (synonyms : list str) (description : str) (args : FlagArg)
       (type : CliType) (optional : bool)
| Positional (position : Z) (name : str) (description : str)
             (type : CliType) (optional : bool).

Definition get_type (a : CliArgument) : CliType :=
  match a with
  | Flag _ _ _ t _ => t
  | Positional _ _ _ t _ => t
  end.

Definition optional (a : CliArgument) : bool :=
  match a with
  | Flag _ _ _ _ o => o
  | Positional _ _ _ _ o => o
  end.

Definition description (a : CliArgument) : str :=
  match a with
  | Flag _ d _ _ _ => d
  | Positional _ _ d _ _ => d
  end.

Fixpoint longest_from (best : str) (rest : list str) : str :=
  match rest with
  | [] => best
  | s :: rest' =>
      if length best <? length s then longest_from s rest'
      else longest_from best rest'
  end.

(** Modelled from the spec: the spelling with the greatest length, ties
    broken by first-seen order; there is none among no spellings. *)
Definition longest_synonym (synonyms : list str) : result str :=
  match synonyms with
  | [] => Raise ValueError
  | s :: rest => Ok (longest_from s rest)
  end.

(** Modelled from the spec: the invocation template, its tokens and its
    arguments. *)
Record Command := {
  command : list str;
  named : list CliArgument;
  positional : list CliArgument
}.

End model.

(** Modelled from the spec: [NamedArgument] of [acclimatise.converter],
    an argument paired with the name chosen for it. *)
Record NamedArgument := {
  arg : model.CliArgument;
  name : str
}.

(** The objects tested with [isinstance] against classes of the model. *)
Inductive ModelObj :=
| ONamedArgument (n : NamedArgument)
| OCliArgument (a : model.CliArgument)
| OFlagArg (f : model.FlagArg).

Inductive ModelClass :=
| class_Flag
| class_Positional
| class_EmptyFlagArg.

Definition isinstance_model (o : ModelObj) (c : ModelClass) : bool :=
  match o, c with
  | OCliArgument (model.Flag _ _ _ _ _), class_Flag => true
  | OCliArgument (model.Positional _ _ _ _ _), class_Positional => true
  | OFlagArg model.EmptyFlagArg, class_EmptyFlagArg => true
  | _, _ => false
  end.

(** [o.position] *)
Definition getattr_position (o : ModelObj) : result Z :=
  match o with
  | OCliArgument (model.Positional position _ _ _ _) => Ok position
  | _ => Raise AttributeError
  end.

(** ** wdlgen tasks *)

Module Task.

(** [Task.Command.CommandInput]: the keyword arguments it is built from. *)
Record CommandInput := { kwargs : gmap string PyVal }.

Record Command := {
  command : str;
  inputs : list CommandInput;
  arguments : list CommandInput
}.

End Task.

Record Input := {
  data_type : WdlType;
  input_name : str
}.

(** ** flag_to_command_input

    The [converter] argument is never read and is left out.  The first
    test is made on [named_flag.arg], the second on [named_flag] itself. *)

Definition flag_to_command_input (named_flag : NamedArgument)
  : result Task.CommandInput :=
  let args : gmap string PyVal := {[ "name" := Str (name named_flag) ]} in
  args ←
    match arg named_flag with
    | model.Flag synonyms _ flag_args _ optional =>
        let args := <["optional" := Bool optional]> args in
        if isinstance_model (OFlagArg flag_args) class_EmptyFlagArg then
          synonym ← model.longest_synonym synonyms;
          Ok (<["false" := Str []]> (<["true" := Str synonym]> args))
        else
          synonym ← model.longest_synonym synonyms;
          Ok (<["prefix" := Str synonym]> args)
    | _ =>
        if isinstance_model (ONamedArgument named_flag) class_Positional then
          position ← getattr_position (ONamedArgument named_flag);
          Ok (<["position" := Int position]>
                (<["optional" := Bool false]> args))
        else
          Ok args
    end;
  Ok {| Task.kwargs := args |}.

(** ** WdlGenerator *)

Definition make_inputs (named : list NamedArgument) : result (list Input) :=
  comprehension
    (λ named_arg,
       data_type ← type_to_wdl (Inst (model.get_type (arg named_arg)))
                               (model.optional (arg named_arg));
       Ok {| data_type := data_type; input_name := name named_arg |})
    named.

Definition make_command (cmd : model.Command) (inputs : list NamedArgument)
  : result Task.Command :=
  command ← str_join (py " ")
              (Str <$> (WDL_STRIP_sub (py "_") <$> model.command cmd));
  inputs' ← comprehension flag_to_command_input
              (filter (λ input,
                         isinstance_model (OCliArgument (arg input))
                                          class_Positional = true) inputs);
  arguments ← comprehension flag_to_command_input
                (filter (λ input,
                           isinstance_model (OCliArgument (arg input))
                                            class_Flag = true) inputs);
  Ok {| Task.command := command;
        Task.inputs := inputs';
        Task.arguments := arguments |}.

Section make_task_name.

(** [inflection.camelize], an external function. *)
Variable camelize : str -> str.

Definition make_task_name (cmd : model.Command) : result str :=
  joined ← str_join (py "_")
             (Str <$> (WDL_STRIP_sub [] <$> model.command cmd));
  Ok (camelize (str_replace "-" (py "_") joined)).

End make_task_name.

(** ** escape_wdl_str *)

(** The double quote and the backslash. *)
Definition dquote : ascii := "034".
Definition backslash : ascii := "\".

Definition escape_wdl_str (text : str) : str :=
  str_replace dquote [ord backslash; ord dquote] text.

(** ** WdlGenerator.make_parameter_meta *)




(** ** Vocabulary of the properties *)

(** Nothing in the type is optional and every array in it requires an
    element. *)
Fixpoint required_throughout (w : WdlType) : bool :=
  match w with
  | MkWdlType (PrimitiveType _) o => negb o
  | MkWdlType (ArrayType sub multiple) o =>
      negb o && multiple && required_throughout sub
  end.

(** The exceptions raised by a result, if any, are among [errors]. *)
Definition raises_only {A} (errors : list PyError) (r : result A) : Prop :=
  ∀ e, r = Raise e → e ∈ errors.


(** Lowering refuses a collection with several distinct classes, one of
    which is complex. *)
Definition lowering_fails (types : list CliType) : Prop :=
  1 < size (type_set_of types) ∧ complex_types ∩ type_set_of types ≠ ∅.

(** The classes tested by the [isinstance] chain of [type_to_wdl], in its
    order. *)
Definition tested_classes : list CliClass :=
  [ class_CliString; class_CliFloat; class_CliBoolean; class_CliInteger;
    class_CliFile; class_CliDir; class_CliTuple; class_CliList;
    class_CliEnum ].

Definition recognized (v : PyVal) : bool :=
  existsb (isinstance v) tested_classes.

(** [WdlType(ArrayType(sub, requires_multiple=not optional))] *)
Definition array_of (sub : WdlType) (optional : bool) : WdlType :=
  MkWdlType (ArrayType sub (negb optional)) false.

(** The types on which the mapper meets no exception along the path it
    follows: into the element of a list, into the first element of a
    homogenous tuple, through lowering for any other tuple. *)
Inductive Mappable : CliType -> Prop :=
| Mappable_leaf typ :
    type_of typ ≠ class_CliList -> type_of typ ≠ class_CliTuple ->
    Mappable typ
| Mappable_list value :
    Mappable value -> Mappable (CliList value)
| Mappable_homogenous first rest :
    Mappable first -> Mappable (CliTuple (first :: rest) true)
| Mappable_lowered values :
    ~ lowering_fails values -> Mappable (CliTuple values false).

(** The element type of the array a list or tuple is mapped to: the
    mapping, with [optional=False], of the list's element, of a homogenous
    tuple's first element, or of the lowering of any other tuple's
    elements. *)
Definition element_maps_to (typ : CliType) (sub : WdlType) : Prop :=
  match typ with
  | CliList value => type_to_wdl (Inst value) false = Ok sub
  | CliTuple values true =>
      ∃ first, head values = Some first ∧
               type_to_wdl (Inst first) false = Ok sub
  | CliTuple values false =>
      ∃ lowered, lowest_common_type values = Ok lowered ∧
                 type_to_wdl lowered false = Ok sub
  | _ => False
  end.

(** [sep.join(strs)] over items known to be [str]. *)
Fixpoint join_strs (sep : str) (strs : list str) : str :=
  match strs with
  | [] => []
  | [s] => s
  | s :: rest => s ++ sep ++ join_strs sep rest
  end.

(** * Properties *)

(** ** The result monad *)

Lemma bind_Ok {A B} (r : result A) (f : A -> result B) (b : B) :
  r ≫= f = Ok b ↔ ∃ a, r = Ok a ∧ f a = Ok b.
Proof.
  destruct r as [a|e]; simpl.
  - split; [eauto | intros (? & [= ->] & ?); done].
  - split; [done | intros (? & ? & ?); done].
Qed.

Lemma str_join_class_raises (sep : str) (c : CliClass) (rest : list PyVal) :
  str_join sep (Cls c :: rest) = Raise TypeError.
Proof. reflexivity. Qed.

Lemma str_join_strs_Ok (sep : str) (ss : list str) :
  is_Ok (str_join sep (Str <$> ss)).
Proof.
  induction ss as [|s [|s' rest] IH]; simpl; [by eexists..|].
  destruct IH as [tail Htail]. simpl in Htail. rewrite Htail. by eexists.
Qed.

(** ** Type lowering *)

Section lowering.

Implicit Types (types : list CliType) (c : CliClass).

Lemma elem_of_type_set_of c types :
  c ∈ type_set_of types ↔ ∃ t, t ∈ types ∧ type_of t = c.
Proof.
  unfold type_set_of. rewrite elem_of_list_to_set, list_elem_of_fmap.
  naive_solver.
Qed.

(** The set of classes, and so the outcome, only depends on which types
    occur in the collection. *)
Lemma type_set_of_same_elements (l1 l2 : list CliType) :
  (∀ t, t ∈ l1 ↔ t ∈ l2) → type_set_of l1 = type_set_of l2.
Proof.
  intros Hsame. apply set_eq. intros c.
  rewrite !elem_of_type_set_of. naive_solver.
Qed.

Lemma lowest_common_type_ext (l1 l2 : list CliType) :
  type_set_of l1 = type_set_of l2 →
  lowest_common_type l1 = lowest_common_type l2.
Proof. unfold lowest_common_type. by intros ->. Qed.

Lemma size_2_elems (X : gset CliClass) (a b : CliClass) :
  size X = 2 → a ∈ X → b ∈ X → a ≠ b → X = {[a; b]}.
Proof.
  intros Hsize Ha Hb Hne. symmetry. apply set_subseteq_size_eq.
  - set_solver.
  - rewrite size_union, !size_singleton by set_solver. lia.
Qed.

Lemma complex_disjoint_numeric :
  complex_types ∩ {[class_CliInteger; class_CliFloat]} = (∅ : gset CliClass).
Proof. unfold complex_types. set_solver. Qed.

(** Rule 1: one distinct class. *)
Lemma lowest_common_type_one types :
  size (type_set_of types) = 1 →
  ∃ c, type_set_of types = {[c]} ∧ lowest_common_type types = Ok (Cls c).
Proof.
  intros Hsize. destruct (size_1_elem_of _ Hsize) as [c Hc].
  apply leibniz_equiv in Hc. exists c. split; [done|].
  unfold lowest_common_type. rewrite bool_decide_eq_true_2 by done.
  unfold set_pop. rewrite Hc, elements_singleton. reflexivity.
Qed.

(** Rule 2: exactly the integer and float classes. *)
Lemma lowest_common_type_numeric types :
  type_set_of types = {[class_CliInteger; class_CliFloat]} →
  lowest_common_type types = Ok (Inst CliFloat).
Proof.
  intros Hset. unfold lowest_common_type. rewrite Hset. reflexivity.
Qed.

(** Rule 3: several classes, one of them complex.  The message is never
    built: joining class objects raises first. *)
Lemma lowest_common_type_complex types :
  1 < size (type_set_of types) →
  complex_types ∩ type_set_of types ≠ ∅ →
  lowest_common_type types = Raise TypeError.
Proof.
  intros Hsize Hcomplex. unfold lowest_common_type.
  rewrite bool_decide_eq_false_2 by lia.
  destruct (bool_decide (size _ = 2) && _ && _) eqn:Hnum.
  - apply andb_prop in Hnum as [Hnum Hf]. apply andb_prop in Hnum as [Hs Hi].
    apply bool_decide_eq_true_1 in Hs, Hi, Hf.
    rewrite (size_2_elems _ _ _ Hs Hi Hf) in Hcomplex by done.
    by rewrite complex_disjoint_numeric in Hcomplex.
  - rewrite bool_decide_eq_true_2 by done.
    destruct (elements (type_set_of types)) as [|c rest] eqn:Hel.
    + apply elements_empty_inv, leibniz_equiv in Hel.
      rewrite Hel, size_empty in Hsize. lia.
    + reflexivity.
Qed.

(** Rule 4: no complex class among the classes. *)
Lemma lowest_common_type_simple types :
  complex_types ∩ type_set_of types = ∅ →
  is_Ok (lowest_common_type types).
Proof.
  intros Hsimple. unfold lowest_common_type.
  destruct (bool_decide (size _ = 1)) eqn:Hone.
  - apply bool_decide_eq_true_1, lowest_common_type_one in Hone
      as (c & Hc & _).
    unfold set_pop. rewrite Hc, elements_singleton. by eexists.
  - destruct (_ && _ && _); [by eexists|].
    rewrite bool_decide_eq_false_2 by (by intros []). by eexists.
Qed.

Lemma lowest_common_type_Ok_iff types :
  is_Ok (lowest_common_type types) ↔ ¬ lowering_fails types.
Proof.
  split.
  - intros [v Hv] [Hsize Hcomplex].
    by rewrite lowest_common_type_complex in Hv.
  - intros Hnot.
    destruct (decide (complex_types ∩ type_set_of types = ∅)) as [|Hc];
      [by apply lowest_common_type_simple|].
    destruct (decide (size (type_set_of types) = 1)) as [Hone|Hone].
    + destruct (lowest_common_type_one _ Hone) as (c & _ & ->). by eexists.
    + destruct (decide (size (type_set_of types) = 0)) as [Hz|Hz].
      * apply size_empty_inv, leibniz_equiv in Hz. rewrite Hz in Hc.
        exfalso. apply Hc. set_solver.
      * exfalso. apply Hnot. split; [lia | done].
Qed.

(** Whatever lowering returns is a class object, a float or a string. *)
Lemma lowest_common_type_range types (v : PyVal) :
  lowest_common_type types = Ok v →
  (∃ c, v = Cls c) ∨ v = Inst CliFloat ∨ v = Inst CliString.
Proof.
  unfold lowest_common_type, mbind, result_bind.
  repeat case_match; intros; simplify_eq; eauto.
Qed.

End lowering.

(** ** Type mapping *)

Section mapping.

Implicit Types (typ : CliType) (optional : bool) (w : WdlType).

(** The equations of [type_to_wdl] on containers. *)
Lemma type_to_wdl_list typ optional :
  type_to_wdl (Inst (CliList typ)) optional =
  sub ← type_to_wdl (Inst typ) false; Ok (array_of sub optional).
Proof. by simp type_to_wdl. Qed.

Lemma type_to_wdl_tuple_empty optional :
  type_to_wdl (Inst (CliTuple [] true)) optional = Raise IndexError.
Proof. by simp type_to_wdl. Qed.

Lemma type_to_wdl_tuple_first typ (rest : list CliType) optional :
  type_to_wdl (Inst (CliTuple (typ :: rest) true)) optional =
  sub ← type_to_wdl (Inst typ) false; Ok (array_of sub optional).
Proof. by simp type_to_wdl. Qed.

Lemma type_to_wdl_tuple_lowered (values : list CliType) optional :
  type_to_wdl (Inst (CliTuple values false)) optional =
  lowered ← lowest_common_type values;
  sub ← type_to_wdl lowered false;
  Ok (array_of sub optional).
Proof.
  simp type_to_wdl.
  destruct (inspect (lowest_common_type values)) as [[lowered|e] Heq];
    simp type_to_wdl; by rewrite Heq.
Qed.

(** The fallback branch: whatever no [isinstance] test recognises. *)
Lemma type_to_wdl_fallback (v : PyVal) optional :
  recognized v = false →
  type_to_wdl v optional = Ok (MkWdlType (PrimitiveType kString) optional).
Proof.
  destruct v as [[]| | | |]; try discriminate; intros _; by simp type_to_wdl.
Qed.

(** Mapping a lowered type never fails. *)
Lemma type_to_wdl_lowered_Ok (values : list CliType) (lowered : PyVal) optional :
  lowest_common_type values = Ok lowered →
  is_Ok (type_to_wdl lowered optional).
Proof.
  intros Hlow. apply lowest_common_type_range in Hlow as [[c ->]|[->| ->]];
    simp type_to_wdl; by eexists.
Qed.

End mapping.

Section mapping_total.

Implicit Types (typ : CliType) (optional : bool) (w : WdlType).

Lemma type_to_wdl_leaf_Ok typ optional :
  type_of typ ≠ class_CliList → type_of typ ≠ class_CliTuple →
  is_Ok (type_to_wdl (Inst typ) optional).
Proof.
  destruct typ; simpl; intros; try done; simp type_to_wdl; by eexists.
Qed.

Lemma array_of_Ok (r : result WdlType) optional :
  is_Ok (sub ← r; Ok (array_of sub optional)) ↔ is_Ok r.
Proof.
  destruct r as [sub|e]; simpl; split; intros [? ?]; by eexists.
Qed.

Lemma Mappable_type_to_wdl typ :
  Mappable typ → ∀ optional, is_Ok (type_to_wdl (Inst typ) optional).
Proof.
  induction 1 as [typ Hl Ht|value _ IH|first rest _ IH|values Hlow];
    intros optional.
  - by apply type_to_wdl_leaf_Ok.
  - rewrite type_to_wdl_list. by apply array_of_Ok.
  - rewrite type_to_wdl_tuple_first. by apply array_of_Ok.
  - rewrite type_to_wdl_tuple_lowered.
    apply lowest_common_type_Ok_iff in Hlow as [lowered Hlowered].
    rewrite Hlowered. simpl.
    apply array_of_Ok. by eapply type_to_wdl_lowered_Ok.
Qed.

Lemma type_to_wdl_Mappable_sized (n : nat) :
  ∀ typ optional,
    cli_size typ < n →
    is_Ok (type_to_wdl (Inst typ) optional) → Mappable typ.
Proof.
  induction n as [|n IH]; intros typ optional Hsize HOk; [lia|].
  destruct typ as [| | | | | | |value|values [|]|key value];
    try (by apply Mappable_leaf).
  - rewrite type_to_wdl_list in HOk. apply array_of_Ok in HOk.
    apply Mappable_list, (IH _ false); [simpl in Hsize; lia | done].
  - destruct values as [|first rest].
    + rewrite type_to_wdl_tuple_empty in HOk. by destruct HOk.
    + rewrite type_to_wdl_tuple_first in HOk. apply array_of_Ok in HOk.
      apply Mappable_homogenous, (IH _ false); [simpl in Hsize; lia | done].
  - apply Mappable_lowered, lowest_common_type_Ok_iff.
    rewrite type_to_wdl_tuple_lowered in HOk.
    destruct (lowest_common_type values) as [lowered|e]; [by eexists|].
    by destruct HOk.
Qed.

End mapping_total.

(** C1, as stated, fails: a tuple that is not homogenous and holds a file
    and a string cannot be lowered, and the exception leaves the mapper. *)
Lemma type_to_wdl_not_total :
  type_to_wdl (Inst (CliTuple [CliFile; CliString] false)) false
    = Raise TypeError
  ∧ ¬ (∀ typ optional, is_Ok (type_to_wdl (Inst typ) optional)).
Proof.
  assert (type_to_wdl (Inst (CliTuple [CliFile; CliString] false)) false
          = Raise TypeError) as Hraise.
  { rewrite type_to_wdl_tuple_lowered.
    rewrite lowest_common_type_complex; [done | vm_compute; lia | by vm_compute]. }
  split; [done|].
  intros Htotal.
  destruct (Htotal (CliTuple [CliFile; CliString] false) false) as [w Hw].
  congruence.
Qed.

(** C1 (amended): [type_to_wdl] returns a target type for an abstract type
    and either value of [optional] exactly when the type is mappable: a
    scalar, enum or dict; a list whose element is mappable; a homogenous
    tuple with a first element, which is mappable; any other tuple unless
    its elements have several distinct classes, one of them complex (then
    lowering raises and the exception propagates).  A value that no
    [isinstance] test recognises is mapped to the string type. *)
Theorem type_to_wdl_total_iff_mappable (typ : CliType) (optional : bool) :
  (is_Ok (type_to_wdl (Inst typ) optional) ↔ Mappable typ)
  ∧ (∀ v : PyVal,
       recognized v = false →
       type_to_wdl v optional = Ok (MkWdlType (PrimitiveType kString) optional)).
Proof.
  split; [split|].
  - intros HOk.
    apply (type_to_wdl_Mappable_sized (S (cli_size typ)) typ optional);
      [lia | done].
  - intros Hm. by apply Mappable_type_to_wdl.
  - intros v. apply type_to_wdl_fallback.
Qed.

Lemma type_to_wdl_total_iff_mappable_witness :
  is_Ok (type_to_wdl (Inst (CliTuple [CliInteger; CliFloat] false)) true)
  ∧ type_to_wdl (Cls class_CliFile) true
    = Ok (MkWdlType (PrimitiveType kString) true).
Proof.
  destruct (type_to_wdl_total_iff_mappable
              (CliTuple [CliInteger; CliFloat] false) true) as [Hiff Hfallback].
  split.
  - apply Hiff, Mappable_lowered. intros [_ Hcomplex]. by apply Hcomplex.
  - apply Hfallback. reflexivity.
Defined.

(** C3, as stated, fails: the outermost array is not marked optional. *)
Lemma nested_list_outer_not_optional :
  ¬ (∃ w, type_to_wdl (Inst (CliList (CliList CliInteger))) true = Ok w
          ∧ wdl_optional w = true).
Proof.
  intros (w & Hw & Hopt). rewrite !type_to_wdl_list in Hw.
  simp type_to_wdl in Hw. simpl in Hw. by simplify_eq.
Qed.

(** C3 (amended): mapping [List(List(Integer))] with [optional=True] yields
    an array of arrays of [int] in which no level is marked optional: the
    outermost array does not require an element ([requires_multiple] is
    false, which is all that [optional=True] changes), the inner array
    does, and the innermost [int] is not optional. *)
Theorem type_to_wdl_nested_list :
  type_to_wdl (Inst (CliList (CliList CliInteger))) true =
  Ok (MkWdlType
        (ArrayType
           (MkWdlType
              (ArrayType (MkWdlType (PrimitiveType kInt) false) true)
              false)
           false)
        false).
Proof. rewrite !type_to_wdl_list. by simp type_to_wdl. Qed.

(** C9: every dict type, whatever its key and value types and whatever
    [optional], falls through every [isinstance] test and is mapped to the
    primitive string type by the final branch, although the dict class is
    among the complex classes that lowering refuses to mix. *)
Theorem type_to_wdl_dict (key value : CliType) (optional : bool) :
  recognized (Inst (CliDict key value)) = false
  ∧ type_to_wdl (Inst (CliDict key value)) optional
    = Ok (MkWdlType (PrimitiveType kString) optional)
  ∧ class_CliDict ∈ complex_types.
Proof.
  split; [reflexivity|]. split.
  - by apply type_to_wdl_fallback.
  - unfold complex_types. set_solver.
Qed.

(** Mapping with [optional=False] never marks the result optional. *)
Lemma type_to_wdl_false_not_optional (v : PyVal) (w : WdlType) :
  type_to_wdl v false = Ok w → wdl_optional w = false.
Proof.
  destruct v as [[| | | | | | |value|values [|]|key value]| | | |];
    try (simp type_to_wdl; by intros [= <-]).
  - rewrite type_to_wdl_list. intros (sub & _ & [= <-])%bind_Ok. done.
  - destruct values as [|first rest].
    + by rewrite type_to_wdl_tuple_empty.
    + rewrite type_to_wdl_tuple_first. intros (sub & _ & [= <-])%bind_Ok. done.
  - rewrite type_to_wdl_tuple_lowered.
    intros (lowered & _ & (sub & _ & [= <-])%bind_Ok)%bind_Ok. done.
Qed.

(** C10: for a list or tuple type and either value of [optional], the
    target type returned is an array that is never marked optional; its
    [requires_multiple] is the negation of [optional]; its element type is
    mapped with [optional=False] and is not marked optional either. *)
Theorem type_to_wdl_array_never_optional
    (typ : CliType) (optional : bool) (w : WdlType) :
  type_of typ = class_CliList ∨ type_of typ = class_CliTuple →
  type_to_wdl (Inst typ) optional = Ok w →
  wdl_optional w = false
  ∧ ∃ sub, wdl_type_obj w = ArrayType sub (negb optional)
           ∧ element_maps_to typ sub
           ∧ wdl_optional sub = false.
Proof.
  intros Hkind Hw.
  destruct typ as [| | | | | | |value|values [|]|key value];
    try (by destruct Hkind).
  - rewrite type_to_wdl_list in Hw.
    apply bind_Ok in Hw as (sub & Hsub & [= <-]).
    split; [done|]. exists sub. simpl.
    eauto using type_to_wdl_false_not_optional.
  - destruct values as [|first rest].
    + by rewrite type_to_wdl_tuple_empty in Hw.
    + rewrite type_to_wdl_tuple_first in Hw.
      apply bind_Ok in Hw as (sub & Hsub & [= <-]).
      split; [done|]. exists sub. simpl.
      eauto 6 using type_to_wdl_false_not_optional.
  - rewrite type_to_wdl_tuple_lowered in Hw.
    apply bind_Ok in Hw as (lowered & Hlow & Hw).
    apply bind_Ok in Hw as (sub & Hsub & [= <-]).
    split; [done|]. exists sub. simpl.
    eauto 6 using type_to_wdl_false_not_optional.
Qed.

Lemma type_to_wdl_array_never_optional_witness :
  wdl_optional (array_of (MkWdlType (PrimitiveType kFloat) false) false) = false
  ∧ ∃ sub,
      wdl_type_obj (array_of (MkWdlType (PrimitiveType kFloat) false) false)
        = ArrayType sub (negb false)
      ∧ element_maps_to (CliTuple [CliInteger; CliFloat] false) sub
      ∧ wdl_optional sub = false.
Proof.
  apply (type_to_wdl_array_never_optional
           (CliTuple [CliInteger; CliFloat] false) false).
  - right. reflexivity.
  - vm_compute. reflexivity.
Defined.

(** ** Type lowering: the claims *)

(** C5: whenever the distinct classes number more than one and include a
    complex class, lowering does fail, but with the [TypeError] of joining
    class objects into the message, never with the exception that was to
    name the offending classes. *)
Theorem lowest_common_type_complex_raises (types : list CliType) :
  1 < size (type_set_of types) →
  complex_types ∩ type_set_of types ≠ ∅ →
  lowest_common_type types = Raise TypeError
  ∧ ∀ msg, lowest_common_type types ≠ Raise (Exception msg).
Proof.
  intros Hsize Hcomplex.
  rewrite (lowest_common_type_complex _ Hsize Hcomplex). by split.
Qed.

Lemma lowest_common_type_complex_raises_witness :
  lowest_common_type [CliFile; CliString] = Raise TypeError
  ∧ ∀ msg, lowest_common_type [CliFile; CliString] ≠ Raise (Exception msg).
Proof.
  apply (lowest_common_type_complex_raises [CliFile; CliString]).
  - vm_compute. lia.
  - by vm_compute.
Defined.

Example lowest_common_type_dir_int_float :
  lowest_common_type [CliDir; CliInteger; CliFloat] = Raise TypeError.
Proof. apply lowest_common_type_complex; [vm_compute; lia | by vm_compute]. Qed.

(** C7: with exactly one distinct class, lowering succeeds, and what it
    returns is the class object shared by the elements, not one of the
    elements. *)
Theorem lowest_common_type_one_class (types : list CliType) :
  size (type_set_of types) = 1 →
  ∃ c, (∀ t, t ∈ types → type_of t = c)
       ∧ lowest_common_type types = Ok (Cls c)
       ∧ ∀ t, lowest_common_type types ≠ Ok (Inst t).
Proof.
  intros Hone. destruct (lowest_common_type_one _ Hone) as (c & Hset & Hlow).
  exists c. split; [|split].
  - intros t Ht.
    assert (type_of t ∈ type_set_of types) as Hin
      by (apply elem_of_type_set_of; eauto).
    rewrite Hset in Hin. set_solver.
  - done.
  - intros t. by rewrite Hlow.
Qed.

Lemma lowest_common_type_one_class_witness :
  ∃ c, (∀ t, t ∈ [CliList CliInteger; CliList CliString] → type_of t = c)
       ∧ lowest_common_type [CliList CliInteger; CliList CliString] = Ok (Cls c)
       ∧ ∀ t, lowest_common_type [CliList CliInteger; CliList CliString]
              ≠ Ok (Inst t).
Proof.
  apply (lowest_common_type_one_class [CliList CliInteger; CliList CliString]).
  reflexivity.
Defined.

(** The class object then meets no [isinstance] test of the mapper. *)
Example type_to_wdl_same_class_tuple :
  lowest_common_type [CliFile; CliFile] = Ok (Cls class_CliFile)
  ∧ type_to_wdl (Inst (CliTuple [CliFile; CliFile] false)) false
    = Ok (array_of (MkWdlType (PrimitiveType kString) false) false).
Proof.
  split; [reflexivity|].
  rewrite type_to_wdl_tuple_lowered.
  replace (lowest_common_type [CliFile; CliFile]) with
    (Ok (A:=PyVal) (Cls class_CliFile)) by reflexivity.
  simpl. by simp type_to_wdl.
Qed.

(** C8: lowering gives the same outcome for any reordering of its input,
    and more generally for any two inputs in which the same types occur
    (reordered, duplicated); an input whose distinct classes are exactly
    the integer and float classes is lowered to the float type. *)
Theorem lowest_common_type_invariant (l1 l2 : list CliType) :
  (l1 ≡ₚ l2 → lowest_common_type l1 = lowest_common_type l2)
  ∧ ((∀ t, t ∈ l1 ↔ t ∈ l2) → lowest_common_type l1 = lowest_common_type l2)
  ∧ (type_set_of l1 = {[class_CliInteger; class_CliFloat]} →
     lowest_common_type l1 = Ok (Inst CliFloat)).
Proof.
  split; [|split].
  - intros Hperm. apply lowest_common_type_ext, type_set_of_same_elements.
    intros t. by rewrite Hperm.
  - intros Hsame. by apply lowest_common_type_ext, type_set_of_same_elements.
  - apply lowest_common_type_numeric.
Qed.

Lemma lowest_common_type_invariant_witness :
  lowest_common_type [CliInteger; CliFloat; CliString]
    = lowest_common_type [CliString; CliInteger; CliFloat]
  ∧ lowest_common_type [CliInteger; CliFloat; CliInteger]
    = lowest_common_type [CliFloat; CliInteger]
  ∧ lowest_common_type [CliInteger; CliFloat; CliInteger] = Ok (Inst CliFloat).
Proof.
  destruct (lowest_common_type_invariant
              [CliInteger; CliFloat; CliString]
              [CliString; CliInteger; CliFloat]) as (Hperm & _ & _).
  destruct (lowest_common_type_invariant
              [CliInteger; CliFloat; CliInteger]
              [CliFloat; CliInteger]) as (_ & Hsame & Hfloat).
  split; [|split].
  - apply Hperm. symmetry.
    apply (Permutation_cons_append [CliInteger; CliFloat] CliString).
  - apply Hsame. intros t. rewrite !elem_of_cons. tauto.
  - apply Hfloat. reflexivity.
Defined.

(** ** Command inputs *)

(** C2: for a positional argument the test of the second branch is made on
    the named argument, not on the argument it wraps, so the branch is not
    taken: the placeholder is built from the name alone.  It is not marked
    optional, whatever the model's flag, and it records no position. *)
Theorem flag_to_command_input_positional
    (position : Z) (arg_name description chosen : str)
    (typ : CliType) (optional : bool) :
  ∃ input,
    flag_to_command_input
      {| arg := model.Positional position arg_name description typ optional;
         name := chosen |} = Ok input
    ∧ Task.kwargs input = {[ "name" := Str chosen ]}
    ∧ Task.kwargs input !! "optional" = None
    ∧ Task.kwargs input !! "position" = None.
Proof.
  eexists. split; [reflexivity|]. simpl.
  split; [done|]. by rewrite !lookup_singleton_ne.
Qed.

(** A flag, by contrast, carries its optional mark and its longest
    synonym. *)
Example flag_to_command_input_flag :
  ∃ input,
    flag_to_command_input
      {| arg := model.Flag [py "-o"; py "--output"] [] model.ValuedFlagArg
                           CliFile true;
         name := py "output" |} = Ok input
    ∧ Task.kwargs input !! "optional" = Some (Bool true)
    ∧ Task.kwargs input !! "prefix" = Some (Str (py "--output")).
Proof. eexists. split; [reflexivity|]. by vm_compute. Qed.

(** ** Stripping *)

Section stripping.

Implicit Types (s tok repl : str) (c : char) (pos : nat).

Lemma is_letter_ident_char c : is_letter c = true → is_ident_char c = true.
Proof.
  unfold is_letter, is_ident_char. intros H%orb_prop.
  destruct H as [-> | ->]; by rewrite ?orb_true_r.
Qed.

Lemma WDL_STRIP_match_later pos c :
  WDL_STRIP_match (S pos) c = negb (is_ident_char c).
Proof. reflexivity. Qed.

Lemma WDL_STRIP_match_first c :
  WDL_STRIP_match 0 c = negb (is_letter c).
Proof.
  unfold WDL_STRIP_match. simpl.
  destruct (is_letter c) eqn:Hl; [|done].
  by rewrite (is_letter_ident_char _ Hl).
Qed.

(** Past the first offset, characters of an identifier are kept. *)
Lemma WDL_STRIP_sub_from_legal pos repl s :
  forallb is_ident_char s = true →
  WDL_STRIP_sub_from (S pos) repl s = s.
Proof.
  revert pos. induction s as [|c rest IH]; intros pos Hall; [done|].
  simpl in Hall. apply andb_prop in Hall as [Hc Hrest].
  simpl. rewrite WDL_STRIP_match_later, Hc. simpl. by rewrite IH.
Qed.

(** A string matching [WDL_IDENT] has no match of [WDL_STRIP]. *)
Lemma WDL_STRIP_sub_legal repl tok :
  WDL_IDENT_fullmatch tok = true → WDL_STRIP_sub repl tok = tok.
Proof.
  destruct tok as [|c rest]; [done|]. simpl.
  intros [Hc Hrest]%andb_prop. unfold WDL_STRIP_sub. simpl.
  rewrite WDL_STRIP_match_first, Hc. simpl.
  by rewrite WDL_STRIP_sub_from_legal.
Qed.

(** Replacing by one character rewrites the subject in place. *)
Lemma WDL_STRIP_sub_from_char pos (u : char) s :
  WDL_STRIP_sub_from pos [u] s =
  imap (λ i c, if WDL_STRIP_match (pos + i) c then u else c) s.
Proof.
  revert pos. induction s as [|c rest IH]; intros pos; [done|].
  simpl. rewrite Nat.add_0_r, IH. destruct (WDL_STRIP_match pos c);
    simpl; f_equal; apply imap_ext; intros i x _; simpl;
    by rewrite Nat.add_succ_r.
Qed.

Lemma WDL_STRIP_sub_char (u : char) s :
  WDL_STRIP_sub [u] s =
  imap (λ i c, if WDL_STRIP_match i c then u else c) s.
Proof. apply WDL_STRIP_sub_from_char. Qed.

(** Replacing by nothing keeps the identifier characters past the first
    offset, and the first character when it is a letter. *)
Lemma WDL_STRIP_sub_from_nil pos s :
  WDL_STRIP_sub_from (S pos) [] s =
  filter (λ c, is_ident_char c = true) s.
Proof.
  revert pos. induction s as [|c rest IH]; intros pos; [done|].
  cbn [WDL_STRIP_sub_from]. rewrite WDL_STRIP_match_later, IH, filter_cons.
  destruct (is_ident_char c) eqn:Hc; by case_decide.
Qed.

Lemma WDL_STRIP_sub_nil c rest :
  WDL_STRIP_sub [] (c :: rest) =
  (if is_letter c then [c] else [])
    ++ filter (λ c, is_ident_char c = true) rest.
Proof.
  unfold WDL_STRIP_sub. simpl.
  rewrite WDL_STRIP_match_first, WDL_STRIP_sub_from_nil.
  by destruct (is_letter c).
Qed.

Lemma str_join_strs sep (strs : list str) :
  str_join sep (Str <$> strs) = Ok (join_strs sep strs).
Proof.
  induction strs as [|s [|s' rest] IH]; [done..|].
  change (str_join sep (Str <$> s :: s' :: rest))
    with (tail ← str_join sep (Str <$> s' :: rest); Ok (s ++ sep ++ tail)).
  by rewrite IH.
Qed.

End stripping.

(** ** Command tokens *)

(** C4, as stated, fails: the illegal character of a command token is not
    removed. *)
Lemma make_command_token_not_removed :
  ∃ c,
    make_command {| model.command := [py "my@tool"];
                    model.named := []; model.positional := [] |} [] = Ok c
    ∧ Task.command c = py "my_tool"
    ∧ Task.command c ≠ py "mytool".
Proof. eexists. split; [reflexivity|]. by split. Qed.

(** C4 (amended): the command string is the command's tokens, each put
    through the stripping pattern of identifier sanitization, joined by
    spaces; every character the pattern matches is replaced by an
    underscore, in place, and every other character is kept, so
    [my@tool] becomes [my_tool]; a token that already is an identifier is
    left unchanged. *)
Theorem make_command_sanitizes_tokens
    (cmd : model.Command) (inputs : list NamedArgument) (c : Task.Command) :
  make_command cmd inputs = Ok c →
  Task.command c
    = join_strs (py " ") (WDL_STRIP_sub (py "_") <$> model.command cmd)
  ∧ (∀ tok : str,
       WDL_STRIP_sub (py "_") tok
         = imap (λ i ch, if WDL_STRIP_match i ch then ord "_" else ch) tok)
  ∧ (∀ tok : str,
       WDL_IDENT_fullmatch tok = true → WDL_STRIP_sub (py "_") tok = tok)
  ∧ WDL_STRIP_sub (py "_") (py "my@tool") = py "my_tool".
Proof.
  intros Hc. unfold make_command in Hc. rewrite str_join_strs in Hc.
  simpl in Hc.
  apply bind_Ok in Hc as (ins & _ & Hc).
  apply bind_Ok in Hc as (args & _ & [= <-]).
  split; [done|]. split; [|split].
  - intros tok. apply (WDL_STRIP_sub_char (ord "_")).
  - intros tok. apply WDL_STRIP_sub_legal.
  - reflexivity.
Qed.

Lemma make_command_sanitizes_tokens_witness :
  py "my_tool view"
    = join_strs (py " ") (WDL_STRIP_sub (py "_") <$> [py "my@tool"; py "view"])
  ∧ (∀ tok : str,
       WDL_STRIP_sub (py "_") tok
         = imap (λ i ch, if WDL_STRIP_match i ch then ord "_" else ch) tok)
  ∧ (∀ tok : str,
       WDL_IDENT_fullmatch tok = true → WDL_STRIP_sub (py "_") tok = tok)
  ∧ WDL_STRIP_sub (py "_") (py "my@tool") = py "my_tool".
Proof.
  apply (make_command_sanitizes_tokens
           {| model.command := [py "my@tool"; py "view"];
              model.named := []; model.positional := [] |}
           []
           {| Task.command := py "my_tool view";
              Task.inputs := []; Task.arguments := [] |}).
  reflexivity.
Defined.

(** ** Identifier stripping *)

(** C6: one application of the stripping rule to [12abc] removes the
    leading [1] only; what remains starts with a digit, so it is neither
    empty nor an identifier, and a second application changes it again. *)
Theorem WDL_STRIP_sub_not_idempotent :
  WDL_STRIP_sub [] (py "12abc") = py "2abc"
  ∧ py "2abc" ≠ []
  ∧ WDL_IDENT_fullmatch (py "2abc") = false
  ∧ WDL_STRIP_sub [] (WDL_STRIP_sub [] (py "12abc")) = py "abc".
Proof. by repeat split. Qed.

(** On a subject that starts with a letter the rule does yield an
    identifier, and applying it again changes nothing. *)
Lemma WDL_STRIP_sub_letter_first (c : char) (rest : str) :
  is_letter c = true →
  WDL_IDENT_fullmatch (WDL_STRIP_sub [] (c :: rest)) = true
  ∧ WDL_STRIP_sub [] (WDL_STRIP_sub [] (c :: rest))
    = WDL_STRIP_sub [] (c :: rest).
Proof.
  intros Hc.
  assert (WDL_IDENT_fullmatch (WDL_STRIP_sub [] (c :: rest)) = true) as Hid.
  { rewrite WDL_STRIP_sub_nil, Hc. simpl. rewrite Hc. simpl.
    apply forallb_forall. intros x Hx%list_elem_of_In.
    by apply list_elem_of_filter in Hx as [Hx _]. }
  split; [done|]. by apply WDL_STRIP_sub_legal.
Qed.

(** * Further properties *)

(** ** escape_wdl_str *)

Section escaping.

Implicit Types (text s : list N) (c : N).

Lemma escape_wdl_str_cons c s :
  escape_wdl_str (c :: s) =
  (if (c =? ord dquote)%N then [ord backslash; ord dquote] else [c])
    ++ escape_wdl_str s.
Proof. reflexivity. Qed.

Lemma escape_wdl_str_head s : head (escape_wdl_str s) ≠ Some (ord dquote).
Proof.
  destruct s as [|c s]; [done|]. rewrite escape_wdl_str_cons.
  destruct (c =? ord dquote)%N eqn:Hc; simpl; [done|].
  intros [= ->]. by rewrite N.eqb_refl in Hc.
Qed.

Lemma escape_wdl_str_length s :
  length (escape_wdl_str s)
  = length s + length (filter (λ c, c = ord dquote) s).
Proof.
  induction s as [|c s IH]; [done|].
  rewrite escape_wdl_str_cons, length_app, IH, filter_cons.
  destruct (c =? ord dquote)%N eqn:Hc.
  - apply N.eqb_eq in Hc. rewrite decide_True by done. simpl. lia.
  - apply N.eqb_neq in Hc. rewrite decide_False by done. simpl. lia.
Qed.

End escaping.

(** X1: in the escaped text every double quote directly follows a
    backslash. *)
Theorem escape_wdl_str_quotes_escaped (text : list N) (i : nat) :
  escape_wdl_str text !! i = Some (ord dquote) →
  ∃ j, i = S j ∧ escape_wdl_str text !! j = Some (ord backslash).
Proof.
  revert i. induction text as [|c s IH]; intros i Hi; [done|].
  rewrite escape_wdl_str_cons in Hi |- *.
  destruct (c =? ord dquote)%N eqn:Hc.
  - destruct i as [|[|i]]; [done | by exists 0 |].
    destruct (IH i Hi) as (j & -> & Hj). by exists (S (S j)).
  - destruct i as [|i].
    + simpl in Hi. injection Hi as ->. by rewrite N.eqb_refl in Hc.
    + destruct (IH i Hi) as (j & -> & Hj). by exists (S j).
Qed.

Lemma escape_wdl_str_quotes_escaped_witness :
  ∃ j, 2 = S j
       ∧ escape_wdl_str [97; 34; 98]%N !! j = Some (ord backslash).
Proof.
  apply (escape_wdl_str_quotes_escaped [97; 34; 98]%N 2). reflexivity.
Defined.

(** X2: escaping loses nothing: two texts with the same escaped form are
    the same text. *)
Theorem escape_wdl_str_inj (s1 s2 : list N) :
  escape_wdl_str s1 = escape_wdl_str s2 → s1 = s2.
Proof.
  revert s2. induction s1 as [|c1 s1 IH]; intros [|c2 s2] Heq.
  - done.
  - rewrite escape_wdl_str_cons in Heq. by destruct (c2 =? _)%N.
  - rewrite escape_wdl_str_cons in Heq. by destruct (c1 =? _)%N.
  - pose proof (escape_wdl_str_head s1) as Hh1.
    pose proof (escape_wdl_str_head s2) as Hh2.
    rewrite !escape_wdl_str_cons in Heq.
    destruct (c1 =? ord dquote)%N eqn:Hc1, (c2 =? ord dquote)%N eqn:Hc2;
      simpl in Heq.
    + apply N.eqb_eq in Hc1, Hc2. injection Heq as Heq.
      f_equal; [congruence | by apply IH].
    + injection Heq as _ Heq. rewrite <- Heq in Hh2. by destruct Hh2.
    + injection Heq as _ Heq. rewrite Heq in Hh1. by destruct Hh1.
    + injection Heq as Hc Heq. f_equal; [done | by apply IH].
Qed.

Lemma escape_wdl_str_inj_witness : [97; 34; 98]%N = [97; 34; 98]%N.
Proof. apply (escape_wdl_str_inj [97; 34; 98]%N [97; 34; 98]%N). reflexivity. Defined.

(** X3: the escaped text is longer than the text by the number of double
    quotes in it, and it is the text itself exactly when the text has no
    double quote. *)
Theorem escape_wdl_str_unchanged_iff (text : list N) :
  length (escape_wdl_str text)
    = length text + length (filter (λ c, c = ord dquote) text)
  ∧ (escape_wdl_str text = text ↔ ord dquote ∉ text).
Proof.
  split; [apply escape_wdl_str_length|]. split.
  - intros Heq Hin.
    pose proof (escape_wdl_str_length text) as Hlen. rewrite Heq in Hlen.
    assert (ord dquote ∈ filter (λ c, c = ord dquote) text) as Hf
      by (by apply list_elem_of_filter).
    destruct (filter _ text); [by apply not_elem_of_nil in Hf | simpl in Hlen; lia].
  - induction text as [|c s IH]; intros Hnot; [done|].
    apply not_elem_of_cons in Hnot as [Hc Hs].
    rewrite escape_wdl_str_cons, IH by done.
    destruct (c =? ord dquote)%N eqn:Hq; [|done].
    apply N.eqb_eq in Hq. congruence.
Qed.

(** ** WDL_STRIP, further *)

Section stripping_more.

Implicit Types (s tok sep : list N) (c : N) (pos : nat).

Lemma WDL_STRIP_sub_nil_ident s :
  Forall (λ c, is_ident_char c = true) (WDL_STRIP_sub [] s).
Proof.
  destruct s as [|c rest]; [constructor|].
  rewrite WDL_STRIP_sub_nil. apply Forall_app. split.
  - destruct (is_letter c) eqn:Hc; [|constructor].
    repeat constructor. by apply is_letter_ident_char.
  - apply Forall_forall. by intros x [Hx _]%list_elem_of_filter.
Qed.

Lemma WDL_STRIP_sub_nil_sublist s : WDL_STRIP_sub [] s `sublist_of` s.
Proof.
  destruct s as [|c rest]; [done|].
  rewrite WDL_STRIP_sub_nil. destruct (is_letter c); simpl.
  - apply sublist_skip, sublist_filter.
  - apply sublist_cons, sublist_filter.
Qed.

Lemma WDL_STRIP_unmatched_ident pos c :
  WDL_STRIP_match pos c = false → is_ident_char c = true.
Proof.
  unfold WDL_STRIP_match. intros [_ Hc]%orb_false_elim.
  by apply negb_false_iff.
Qed.

Lemma WDL_STRIP_sub_from_underscore_ident pos s :
  Forall (λ c, is_ident_char c = true) (WDL_STRIP_sub_from pos [ord "_"] s).
Proof.
  revert pos. induction s as [|c rest IH]; intros pos; [constructor|].
  cbn [WDL_STRIP_sub_from]. destruct (WDL_STRIP_match pos c) eqn:Hm;
    simpl; constructor; eauto using WDL_STRIP_unmatched_ident.
Qed.

Lemma WDL_STRIP_sub_from_underscore_idem pos s :
  WDL_STRIP_sub_from pos [ord "_"] (WDL_STRIP_sub_from pos [ord "_"] s)
  = WDL_STRIP_sub_from pos [ord "_"] s.
Proof.
  revert pos. induction s as [|c rest IH]; intros pos; [done|].
  cbn [WDL_STRIP_sub_from]. destruct (WDL_STRIP_match pos c) eqn:Hm;
    cbn [app]; cbn [WDL_STRIP_sub_from].
  - destruct (WDL_STRIP_match pos (ord "_")); cbn [app]; f_equal; apply IH.
  - rewrite Hm. cbn [app]. f_equal. apply IH.
Qed.

Lemma join_strs_Forall (P : N → Prop) sep (strs : list (list N)) :
  Forall P sep → Forall (Forall P) strs → Forall P (join_strs sep strs).
Proof.
  intros Hsep. induction strs as [|s [|s' rest] IH]; intros Hstrs.
  - constructor.
  - by apply Forall_cons_1 in Hstrs as [Hs _].
  - apply Forall_cons_1 in Hstrs as [Hs Hrest].
    change (join_strs sep (s :: s' :: rest))
      with (s ++ sep ++ join_strs sep (s' :: rest)).
    rewrite !Forall_app. auto.
Qed.

Lemma str_replace_absent (old : ascii) (new text : list N) :
  ord old ∉ text → str_replace old new text = text.
Proof.
  induction text as [|c rest IH]; intros Hnot; [done|].
  apply not_elem_of_cons in Hnot as [Hc Hrest].
  change (str_replace old new (c :: rest))
    with ((if (c =? ord old)%N then new else [c]) ++ str_replace old new rest).
  rewrite IH by done.
  destruct (c =? ord old)%N eqn:Hq; [|done].
  apply N.eqb_eq in Hq. congruence.
Qed.

End stripping_more.

(** X4: what stripping leaves is a subsequence of the subject and holds
    identifier characters only. *)
Theorem WDL_STRIP_sub_keeps_ident_chars (s : list N) :
  WDL_STRIP_sub [] s `sublist_of` s
  ∧ Forall (λ c, is_ident_char c = true) (WDL_STRIP_sub [] s).
Proof.
  split; [apply WDL_STRIP_sub_nil_sublist | apply WDL_STRIP_sub_nil_ident].
Qed.

(** X5: the subjects that stripping leaves as they are, are the empty
    string and the identifiers, and no others. *)
Theorem WDL_STRIP_sub_fixed_iff (s : list N) :
  WDL_STRIP_sub [] s = s ↔ s = [] ∨ WDL_IDENT_fullmatch s = true.
Proof.
  split.
  - destruct s as [|c rest]; [by left|]. intros Hfix. right.
    rewrite WDL_STRIP_sub_nil in Hfix. destruct (is_letter c) eqn:Hc.
    + simpl in Hfix. injection Hfix as Hfix. simpl. rewrite Hc. simpl.
      apply forallb_forall. intros x Hx%list_elem_of_In.
      rewrite <- Hfix in Hx. by apply list_elem_of_filter in Hx as [Hx _].
    + simpl in Hfix.
      pose proof (length_filter (λ c, is_ident_char c = true) rest) as Hlen.
      rewrite Hfix in Hlen. simpl in Hlen. lia.
  - intros [-> | Hid]; [done | by apply WDL_STRIP_sub_legal].
Qed.

(** X6: sanitizing a command token a second time changes nothing, and the
    sanitized token has the length of the token. *)
Theorem WDL_STRIP_sub_underscore_idempotent (tok : list N) :
  WDL_STRIP_sub (py "_") (WDL_STRIP_sub (py "_") tok)
    = WDL_STRIP_sub (py "_") tok
  ∧ length (WDL_STRIP_sub (py "_") tok) = length tok.
Proof.
  split.
  - apply WDL_STRIP_sub_from_underscore_idem.
  - change (py "_") with [ord "_"]. by rewrite WDL_STRIP_sub_char, length_imap.
Qed.

(** X7: the command string built by [make_command] holds identifier
    characters and spaces only. *)
Theorem make_command_command_chars
    (cmd : model.Command) (inputs : list NamedArgument) (c : Task.Command) :
  make_command cmd inputs = Ok c →
  Forall (λ ch, is_ident_char ch = true ∨ ch = ord " ") (Task.command c).
Proof.
  intros Hc. unfold make_command in Hc. rewrite str_join_strs in Hc.
  simpl in Hc.
  apply bind_Ok in Hc as (ins & _ & Hc).
  apply bind_Ok in Hc as (args & _ & [= <-]). simpl.
  apply join_strs_Forall.
  - constructor; [by right | constructor].
  - apply Forall_fmap, Forall_forall. intros tok _. simpl.
    eapply Forall_impl; [apply WDL_STRIP_sub_from_underscore_ident|].
    simpl. auto.
Qed.

Lemma make_command_command_chars_witness :
  Forall (λ ch, is_ident_char ch = true ∨ ch = ord " ") (py "my_tool view").
Proof.
  apply (make_command_command_chars
           {| model.command := [py "my@tool"; py "view"];
              model.named := []; model.positional := [] |}
           []
           {| Task.command := py "my_tool view";
              Task.inputs := []; Task.arguments := [] |}).
  reflexivity.
Defined.

(** X8: in [make_task_name] the replacement of hyphens never finds one:
    the name handed to [camelize] is the stripped tokens joined by
    underscores, and it holds identifier characters only. *)
Theorem make_task_name_no_hyphen
    (camelize : list N → list N) (cmd : model.Command) :
  make_task_name camelize cmd
    = Ok (camelize
            (join_strs (py "_") (WDL_STRIP_sub [] <$> model.command cmd)))
  ∧ Forall (λ c, is_ident_char c = true)
      (join_strs (py "_") (WDL_STRIP_sub [] <$> model.command cmd)).
Proof.
  assert (Forall (λ c, is_ident_char c = true)
            (join_strs (py "_") (WDL_STRIP_sub [] <$> model.command cmd)))
    as Hident.
  { apply join_strs_Forall; [by repeat constructor|].
    apply Forall_fmap, Forall_forall. intros tok _.
    apply WDL_STRIP_sub_nil_ident. }
  split; [|done].
  unfold make_task_name. rewrite str_join_strs. simpl.
  rewrite str_replace_absent; [done|].
  intros Hin. by apply (proj1 (Forall_forall _ _) Hident) in Hin.
Qed.

(** ** Lowering, further *)

Section lowering_more.

Implicit Types (types values : list CliType).

Lemma bind_Raise {A B} (r : result A) (f : A → result B) (e : PyError) :
  r ≫= f = Raise e ↔ r = Raise e ∨ ∃ a, r = Ok a ∧ f a = Raise e.
Proof.
  destruct r as [a|e']; simpl.
  - split; [eauto | intros [?|(? & [= ->] & ?)]; done].
  - split; [intros [= ->]; by left | intros [[= ->]|(? & ? & ?)]; done].
Qed.

Lemma lowering_fails_dec types : Decision (lowering_fails types).
Proof. unfold lowering_fails. apply _. Qed.

Lemma lowest_common_type_Raise types (e : PyError) :
  lowest_common_type types = Raise e → e = TypeError ∧ lowering_fails types.
Proof.
  intros Hraise. destruct (lowering_fails_dec types) as [Hfails|Hnot].
  - split; [|done]. destruct Hfails as [Hsize Hcomplex].
    rewrite (lowest_common_type_complex _ Hsize Hcomplex) in Hraise.
    congruence.
  - apply lowest_common_type_Ok_iff in Hnot as [v Hv]. congruence.
Qed.

Lemma lowest_common_type_Float_iff types :
  lowest_common_type types = Ok (Inst CliFloat)
  ↔ type_set_of types = {[class_CliInteger; class_CliFloat]}.
Proof.
  split; [|apply lowest_common_type_numeric].
  unfold lowest_common_type, mbind, result_bind.
  destruct (bool_decide (size _ = 1)); [by destruct (set_pop _)|].
  destruct (bool_decide (size _ = 2) && _ && _) eqn:Hnum.
  - intros _. apply andb_prop in Hnum as [Hnum Hf].
    apply andb_prop in Hnum as [Hs Hi].
    apply bool_decide_eq_true_1 in Hs, Hi, Hf. by apply size_2_elems.
  - destruct (bool_decide (_ ≠ ∅)); [by destruct (str_join _ _)|done].
Qed.

End lowering_more.

(** X9: a collection with no complex class among its classes, whose
    classes are neither a single one nor exactly the integer and float
    classes, is lowered to the string type; so is the empty collection. *)
Theorem lowest_common_type_fallback (types : list CliType) :
  complex_types ∩ type_set_of types = ∅ →
  size (type_set_of types) ≠ 1 →
  type_set_of types ≠ {[class_CliInteger; class_CliFloat]} →
  lowest_common_type types = Ok (Inst CliString).
Proof.
  intros Hsimple Hone Hnum.
  destruct (lowest_common_type_simple _ Hsimple) as [v Hv].
  destruct (lowest_common_type_range _ _ Hv) as [[c ->]|[->| ->]]; [| |done].
  - exfalso. unfold lowest_common_type in Hv.
    rewrite bool_decide_eq_false_2 in Hv by done.
    destruct (_ && _ && _); [done|].
    by rewrite bool_decide_eq_false_2 in Hv by (by intros []).
  - by apply lowest_common_type_Float_iff in Hv.
Qed.

Lemma lowest_common_type_fallback_witness :
  lowest_common_type [CliString; CliBoolean; CliEnum] = Ok (Inst CliString)
  ∧ lowest_common_type [] = Ok (Inst CliString).
Proof.
  split.
  - apply (lowest_common_type_fallback [CliString; CliBoolean; CliEnum]);
      by vm_compute.
  - apply (lowest_common_type_fallback []); by vm_compute.
Defined.

(** X10: lowering raises only when the distinct classes number more than
    one and include a complex class, and what it raises then is the
    [TypeError] of the join. *)
Theorem lowest_common_type_raises_only (types : list CliType) (e : PyError) :
  lowest_common_type types = Raise e →
  e = TypeError
  ∧ 1 < size (type_set_of types)
  ∧ complex_types ∩ type_set_of types ≠ ∅.
Proof. apply lowest_common_type_Raise. Qed.

Lemma lowest_common_type_raises_only_witness :
  TypeError = TypeError
  ∧ 1 < size (type_set_of [CliDir; CliInteger; CliFloat])
  ∧ complex_types ∩ type_set_of [CliDir; CliInteger; CliFloat] ≠ ∅.
Proof.
  apply (lowest_common_type_raises_only [CliDir; CliInteger; CliFloat]).
  reflexivity.
Defined.

(** ** Mapping, further *)

(** X11: a tuple that is not homogenous is mapped, when it is mapped at
    all, to an array of float if the classes of its elements are exactly
    the integer and float classes, and to an array of string otherwise. *)
Theorem type_to_wdl_tuple_lowered_result
    (values : list CliType) (optional : bool) (w : WdlType) :
  type_to_wdl (Inst (CliTuple values false)) optional = Ok w →
  (type_set_of values = {[class_CliInteger; class_CliFloat]}
   ∧ w = array_of (MkWdlType (PrimitiveType kFloat) false) optional)
  ∨ (type_set_of values ≠ {[class_CliInteger; class_CliFloat]}
     ∧ w = array_of (MkWdlType (PrimitiveType kString) false) optional).
Proof.
  rewrite type_to_wdl_tuple_lowered.
  intros (lowered & Hlow & (sub & Hsub & [= <-])%bind_Ok)%bind_Ok.
  destruct (lowest_common_type_range _ _ Hlow) as [[c ->]|[->| ->]];
    simp type_to_wdl in Hsub; injection Hsub as <-.
  - right. split; [|done]. intros Hset%lowest_common_type_Float_iff.
    congruence.
  - left. split; [|done]. by apply lowest_common_type_Float_iff.
  - right. split; [|done]. intros Hset%lowest_common_type_Float_iff.
    congruence.
Qed.

Lemma type_to_wdl_tuple_lowered_result_witness :
  (type_set_of [CliInteger; CliFloat] = {[class_CliInteger; class_CliFloat]}
   ∧ array_of (MkWdlType (PrimitiveType kFloat) false) true
     = array_of (MkWdlType (PrimitiveType kFloat) false) true)
  ∨ (type_set_of [CliInteger; CliFloat] ≠ {[class_CliInteger; class_CliFloat]}
     ∧ array_of (MkWdlType (PrimitiveType kFloat) false) true
       = array_of (MkWdlType (PrimitiveType kString) false) true).
Proof.
  apply (type_to_wdl_tuple_lowered_result [CliInteger; CliFloat] true).
  vm_compute. reflexivity.
Defined.

(** X12: a type that is neither a list nor a tuple is always mapped, to a
    primitive type that carries the [optional] argument as its mark. *)
Theorem type_to_wdl_scalar (typ : CliType) (optional : bool) :
  type_of typ ≠ class_CliList → type_of typ ≠ class_CliTuple →
  ∃ kind,
    type_to_wdl (Inst typ) optional
    = Ok (MkWdlType (PrimitiveType kind) optional).
Proof.
  destruct typ; simpl; intros; try done; simp type_to_wdl; by eexists.
Qed.

Lemma type_to_wdl_scalar_witness :
  ∃ kind,
    type_to_wdl (Inst (CliDict CliString CliFile)) true
    = Ok (MkWdlType (PrimitiveType kind) true).
Proof. by apply (type_to_wdl_scalar (CliDict CliString CliFile) true). Defined.

Section mapping_more.

Lemma type_to_wdl_raises_sized (n : nat) :
  ∀ (v : PyVal) (optional : bool),
    py_size v < n →
    raises_only [TypeError; IndexError] (type_to_wdl v optional).
Proof.
  induction n as [|n IH]; intros v optional Hsize e Hraise; [lia|].
  destruct v as [[| | | | | | |value|values [|]|key value]| | | |];
    try (simp type_to_wdl in Hraise; discriminate).
  - rewrite type_to_wdl_list in Hraise.
    apply bind_Raise in Hraise as [Hraise|(sub & _ & [=])].
    apply (IH _ false) in Hraise; [done | simpl in *; lia].
  - destruct values as [|first rest].
    + rewrite type_to_wdl_tuple_empty in Hraise. injection Hraise as <-.
      set_solver.
    + rewrite type_to_wdl_tuple_first in Hraise.
      apply bind_Raise in Hraise as [Hraise|(sub & _ & [=])].
      apply (IH _ false) in Hraise; [done | simpl in *; lia].
  - rewrite type_to_wdl_tuple_lowered in Hraise.
    apply bind_Raise in Hraise as [Hraise|(lowered & Hlow & Hraise)].
    + apply lowest_common_type_Raise in Hraise as [-> _]. set_solver.
    + apply bind_Raise in Hraise as [Hraise|(sub & _ & [=])].
      destruct (type_to_wdl_lowered_Ok _ _ false Hlow) as [sub Hsub].
      congruence.
Qed.

Lemma type_to_wdl_required_sized (n : nat) :
  ∀ (v : PyVal) (w : WdlType),
    py_size v < n →
    type_to_wdl v false = Ok w → required_throughout w = true.
Proof.
  induction n as [|n IH]; intros v w Hsize Hw; [lia|].
  destruct v as [[| | | | | | |value|values [|]|key value]| | | |];
    try (simp type_to_wdl in Hw; by injection Hw as <-).
  - rewrite type_to_wdl_list in Hw.
    apply bind_Ok in Hw as (sub & Hsub & [= <-]).
    apply IH in Hsub; [by simpl; rewrite Hsub | simpl in *; lia].
  - destruct values as [|first rest].
    + by rewrite type_to_wdl_tuple_empty in Hw.
    + rewrite type_to_wdl_tuple_first in Hw.
      apply bind_Ok in Hw as (sub & Hsub & [= <-]).
      apply IH in Hsub; [by simpl; rewrite Hsub | simpl in *; lia].
  - rewrite type_to_wdl_tuple_lowered in Hw.
    apply bind_Ok in Hw as (lowered & Hlow & Hw).
    apply bind_Ok in Hw as (sub & Hsub & [= <-]).
    destruct (lowest_common_type_range _ _ Hlow) as [[c ->]|[->| ->]];
      simp type_to_wdl in Hsub; by injection Hsub as <-.
Qed.

End mapping_more.

(** X13: whatever it is given, [type_to_wdl] raises nothing but the
    [TypeError] of a failed lowering and the [IndexError] of a homogenous
    tuple without elements. *)
Theorem type_to_wdl_raises_only (v : PyVal) (optional : bool) :
  raises_only [TypeError; IndexError] (type_to_wdl v optional).
Proof. apply (type_to_wdl_raises_sized (S (py_size v))). lia. Qed.

(** X14: in a type mapped with [optional=False] nothing is marked
    optional and every array, at every depth, requires an element. *)
Theorem type_to_wdl_required_throughout (v : PyVal) (w : WdlType) :
  type_to_wdl v false = Ok w → required_throughout w = true.
Proof. apply (type_to_wdl_required_sized (S (py_size v))). lia. Qed.

Lemma type_to_wdl_required_throughout_witness :
  required_throughout
    (MkWdlType
       (ArrayType
          (MkWdlType (ArrayType (MkWdlType (PrimitiveType kInt) false) true)
                     false)
          true)
       false) = true.
Proof.
  apply (type_to_wdl_required_throughout
           (Inst (CliList (CliTuple [CliInteger; CliInteger] true)))).
  vm_compute. reflexivity.
Defined.

Lemma type_to_wdl_raises_only_witness :
  IndexError ∈ [TypeError; IndexError].
Proof.
  apply (type_to_wdl_raises_only (Inst (CliTuple [] true)) false IndexError).
  vm_compute. reflexivity.
Defined.

(** ** Comprehensions *)

Section comprehensions.

Context {A B : Type} (f : A → result B).

Lemma comprehension_Forall2 (xs : list A) (ys : list B) :
  comprehension f xs = Ok ys → Forall2 (λ x y, f x = Ok y) xs ys.
Proof.
  revert ys. induction xs as [|x rest IH]; intros ys Hys.
  - injection Hys as <-. constructor.
  - simpl in Hys. apply bind_Ok in Hys as (y & Hy & Hys).
    apply bind_Ok in Hys as (ys' & Hrest & [= <-]).
    constructor; [done | by apply IH].
Qed.


End comprehensions.

(** ** Inputs *)


(** X16: the inputs returned by [make_inputs] are as many as the
    arguments, in their order: each has the chosen name of its argument
    and the mapping of the argument's type under the argument's own
    optional flag. *)
Theorem make_inputs_inputs (named : list NamedArgument) (inputs : list Input) :
  make_inputs named = Ok inputs →
  length inputs = length named
  ∧ input_name <$> inputs = name <$> named
  ∧ Forall2 (λ named_arg input,
               type_to_wdl (Inst (model.get_type (arg named_arg)))
                           (model.optional (arg named_arg))
               = Ok (data_type input))
            named inputs.
Proof.
  intros Hin%comprehension_Forall2.
  split; [symmetry; by eapply Forall2_length|].
  induction Hin as [|named_arg input named inputs Hinput _ [IHn IHt]].
  - by split; [|constructor].
  - apply bind_Ok in Hinput as (w & Hw & [= <-]).
    split; [by rewrite !fmap_cons, IHn | by constructor].
Qed.

Lemma make_inputs_inputs_witness :
  length [ {| data_type := MkWdlType (PrimitiveType kFile) true;
              input_name := py "out" |} ]
  = length [ {| arg := model.Flag [py "-o"] [] model.ValuedFlagArg CliFile true;
                name := py "out" |} ]
  ∧ input_name <$> [ {| data_type := MkWdlType (PrimitiveType kFile) true;
                        input_name := py "out" |} ]
    = name <$> [ {| arg := model.Flag [py "-o"] [] model.ValuedFlagArg
                                      CliFile true;
                    name := py "out" |} ]
  ∧ Forall2 (λ named_arg input,
               type_to_wdl (Inst (model.get_type (arg named_arg)))
                           (model.optional (arg named_arg))
               = Ok (data_type input))
            [ {| arg := model.Flag [py "-o"] [] model.ValuedFlagArg CliFile true;
                 name := py "out" |} ]
            [ {| data_type := MkWdlType (PrimitiveType kFile) true;
                 input_name := py "out" |} ].
Proof.
  apply (make_inputs_inputs
           [ {| arg := model.Flag [py "-o"] [] model.ValuedFlagArg CliFile true;
                name := py "out" |} ]).
  vm_compute. reflexivity.
Defined.

(** ** Command inputs, further *)

Section command_inputs.

Implicit Types (named_flag : NamedArgument) (input : Task.CommandInput).




End command_inputs.



(** X18: the placeholder of a flag carries the flag's own optional mark
    and no position; a flag without a value gives its longest synonym as
    the [true] text and the empty string as the [false] text, and no
    prefix; any other flag gives it as the prefix, and neither text. *)
Theorem flag_to_command_input_flag_keys
    (synonyms : list (list N)) (description chosen : list N)
    (flag_args : model.FlagArg) (typ : CliType) (optional : bool)
    (input : Task.CommandInput) :
  flag_to_command_input
    {| arg := model.Flag synonyms description flag_args typ optional;
       name := chosen |} = Ok input →
  Task.kwargs input !! "optional" = Some (Bool optional)
  ∧ Task.kwargs input !! "position" = None
  ∧ ∃ synonym,
      model.longest_synonym synonyms = Ok synonym
      ∧ match flag_args with
        | model.EmptyFlagArg =>
            Task.kwargs input !! "true" = Some (Str synonym)
            ∧ Task.kwargs input !! "false" = Some (Str [])
            ∧ Task.kwargs input !! "prefix" = None
        | model.ValuedFlagArg =>
            Task.kwargs input !! "prefix" = Some (Str synonym)
            ∧ Task.kwargs input !! "true" = None
            ∧ Task.kwargs input !! "false" = None
        end.
Proof.
  unfold flag_to_command_input.
  intros (args & Hargs & [= <-])%bind_Ok. simpl in *.
  destruct flag_args; simpl in Hargs;
    apply bind_Ok in Hargs as (synonym & Hsyn & [= <-]);
    (split; [by simplify_map_eq|]); (split; [by simplify_map_eq|]);
    exists synonym; (split; [done|]); by simplify_map_eq.
Qed.

Lemma flag_to_command_input_flag_keys_witness :
  ∃ input,
    flag_to_command_input
      {| arg := model.Flag [py "-v"; py "--verbose"] [] model.EmptyFlagArg
                           CliBoolean true;
         name := py "verbose" |} = Ok input
    ∧ Task.kwargs input !! "optional" = Some (Bool true)
    ∧ Task.kwargs input !! "position" = None
    ∧ ∃ synonym,
        model.longest_synonym [py "-v"; py "--verbose"] = Ok synonym
        ∧ Task.kwargs input !! "true" = Some (Str synonym)
        ∧ Task.kwargs input !! "false" = Some (Str [])
        ∧ Task.kwargs input !! "prefix" = None.
Proof.
  eexists. split; [reflexivity|].
  apply (flag_to_command_input_flag_keys
           [py "-v"; py "--verbose"] [] (py "verbose") model.EmptyFlagArg
           CliBoolean true).
  reflexivity.
Defined.

(** ** Parameter metadata *)

Section parameter_meta.

Implicit Types (named : list NamedArgument) (chosen : list N).




End parameter_meta.




